(** * useMutation (src/use-mutation.ts): the mutation controller

    A shallow embedding of [useMutation]: the refs it closes over
    ([status], [data], [error]), the [pendingPromise] variable that tells a
    superseded call from the current one, the two handlers chained on the
    promise of the user's mutation ([.then(...).catch(...)]), and [reset].

    Promises are modelled by their identity (a number, fresh per call of
    [mutate]) and by the stage their handler chain has reached; the event
    loop is the list of events it runs, one microtask per event. *)

From stdpp Require Import base tactics option list numbers strings.

(** The four literals the source assigns to and compares with [status.value]:
    ['pending'], ['loading'], ['success'], ['error'] (type [UseQueryStatus] of
    ./query-store). ['pending'] is the state of a mutation that has not been
    called yet, which the specification names idle. *)
Inductive UseQueryStatus := Pending | Loading | Success | Error.

#[global] Instance UseQueryStatus_eq_dec : EqDecision UseQueryStatus.
Proof. solve_decision. Defined.

Definition status_literal (s : UseQueryStatus) : string :=
  match s with
  | Pending => "pending"
  | Loading => "loading"
  | Success => "success"
  | Error => "error"
  end.

Section UseMutation.
(** [TResult], [TParams] and [TError] are the type parameters of
    [useMutation]; [TError] also types every thrown value. *)
Context {TResult TParams TError UseQueryKey : Type}.

(** How a JavaScript call completes: it returns or it throws. *)
Inductive Completion (A : Type) :=
| Normal (a : A)
| Throw (e : TError).
#[global] Arguments Normal {A} a.
#[global] Arguments Throw {A} e.

(** How a promise settles. *)
Inductive Settlement :=
| Fulfilled (r : TResult)
| Rejected (e : TError).

(** [_MutationKeys]: an array of keys, or a function of the result and the
    call's arguments. *)
Inductive MutationKeys :=
| KeysArray (ks : list UseQueryKey)
| KeysFunction (f : TResult -> TParams -> Completion (list UseQueryKey)).

(** [UseMutationOptions]. The [mutation] field is the environment's: what it
    does when called, and how its promise settles, come with the events
    below. *)
Record UseMutationOptions := { keys : option MutationKeys }.

(** The query cache ([useQueryCache()] of ./query-store) as far as
    [useMutation] uses it: [invalidateEntry(key)], which returns nothing. The
    store itself is a parameter; whether a call of it throws is the store's
    to say. *)
Record QueryCache := { invalidateEntry : UseQueryKey -> Completion unit }.

(** The variables of one [useMutation] call, shared by [mutate], [reset] and
    every handler: the three refs and [pendingPromise] (a promise by its
    identity, [None] for [null]). Two logs record the calls made to the
    collaborators: [invalidated], the keys passed to
    [store.invalidateEntry], in call order, and [keysCalls], the arguments
    [options.keys] was called with.

    [data s = Some r] reads: [data.value] is the value [r] a handler assigned;
    [None] reads: never assigned, or cleared by [reset] ([undefined]), and for
    [error], set to [null]. A result that is itself [undefined] (an operation
    of type [Promise<void>]) or a thrown [null] is still written [Some]: [Some]
    tells where the value comes from, not that it differs from [undefined] or
    [null]. *)
Record Scope := {
  status : UseQueryStatus;
  data : option TResult;
  error : option TError;
  pendingPromise : option nat;
  invalidated : list UseQueryKey;
  keysCalls : list (TResult * TParams)
}.

Definition set_status (v : UseQueryStatus) (s : Scope) : Scope :=
  {| status := v; data := data s; error := error s;
     pendingPromise := pendingPromise s;
     invalidated := invalidated s; keysCalls := keysCalls s |}.

Definition set_data (v : option TResult) (s : Scope) : Scope :=
  {| status := status s; data := v; error := error s;
     pendingPromise := pendingPromise s;
     invalidated := invalidated s; keysCalls := keysCalls s |}.

Definition set_error (v : option TError) (s : Scope) : Scope :=
  {| status := status s; data := data s; error := v;
     pendingPromise := pendingPromise s;
     invalidated := invalidated s; keysCalls := keysCalls s |}.

Definition set_pendingPromise (v : option nat) (s : Scope) : Scope :=
  {| status := status s; data := data s; error := error s;
     pendingPromise := v;
     invalidated := invalidated s; keysCalls := keysCalls s |}.

Definition log_invalidated (k : UseQueryKey) (s : Scope) : Scope :=
  {| status := status s; data := data s; error := error s;
     pendingPromise := pendingPromise s;
     invalidated := invalidated s ++ [k]; keysCalls := keysCalls s |}.

Definition log_keysCall (r : TResult) (a : TParams) (s : Scope) : Scope :=
  {| status := status s; data := data s; error := error s;
     pendingPromise := pendingPromise s;
     invalidated := invalidated s; keysCalls := keysCalls s ++ [(r, a)] |}.

(** ** Handler bodies: state passing with exceptions *)

Definition Js (A : Type) : Type := Scope -> Scope * Completion A.

#[local] Instance Js_ret : MRet Js := λ A a s, (s, Normal a).

#[local] Instance Js_bind : MBind Js := λ A B k m s,
  match m s with
  | (s', Normal a) => k a s'
  | (s', Throw e) => (s', Throw e)
  end.

Definition throw {A : Type} (e : TError) : Js A := λ s, (s, Throw e).
Definition assign (f : Scope -> Scope) : Js unit := λ s, (f s, Normal tt).
Definition read {A : Type} (f : Scope -> A) : Js A := λ s, (s, Normal (f s)).
Definition complete {A : Type} (c : Completion A) : Js A := λ s, (s, c).

(** [for (const key of keys) body(key)]: a throw leaves the loop. *)
Fixpoint for_of (ks : list UseQueryKey) (body : UseQueryKey -> Js unit) : Js unit :=
  match ks with
  | [] => mret tt
  | key :: rest => body key ;; for_of rest body
  end.

Variable options : UseMutationOptions.
Variable store : QueryCache.

(** [store.invalidateEntry(key)] *)
Definition store_invalidateEntry (key : UseQueryKey) : Js unit :=
  assign (log_invalidated key) ;; complete (invalidateEntry store key).

(** [options.keys(_data, ...args)] *)
Definition call_keys (f : TResult -> TParams -> Completion (list UseQueryKey))
    (_data : TResult) (args : TParams) : Js (list UseQueryKey) :=
  assign (log_keysCall _data args) ;; complete (f _data args).

(** The handler given to [.then]; [promise] and [args] are the variables of
    the [mutate] call that created it. *)
Definition onFulfilled (promise : nat) (args : TParams) (_data : TResult) : Js TResult :=
  pp ← read pendingPromise;
  (if decide (pp = Some promise) then
     assign (set_data (Some _data)) ;;
     assign (set_error None) ;;
     assign (set_status Success) ;;
     match keys options with
     | Some spec =>
         ks ← match spec with
              | KeysFunction f => call_keys f _data args
              | KeysArray ks => mret ks
              end;
         for_of ks store_invalidateEntry
     | None => mret tt
     end
   else mret tt) ;;
  mret _data.

(** The handler given to [.catch]. *)
Definition onRejected (promise : nat) (_error : TError) : Js TResult :=
  pp ← read pendingPromise;
  (if decide (pp = Some promise) then
     assign (set_error (Some _error)) ;;
     assign (set_status Error)
   else mret tt) ;;
  throw _error.

(** ** Promises and the event loop *)

(** How far the chain [options.mutation(...args).then(...).catch(...)] of one
    [mutate] call has run:
    - [AwaitingThen]: the reaction registered by [.then] has not run;
    - [AwaitingCatch o]: the promise of [.then] settled as [o], the reaction
      registered by [.catch] has not run;
    - [Settled o]: the promise of [.catch], which is the one [mutate]
      returned and stored in [pendingPromise], settled as [o]. *)
Inductive Chain :=
| AwaitingThen
| AwaitingCatch (o : Settlement)
| Settled (o : Settlement).

(** What the handlers of one call close over, and the stage of its chain. *)
Record Call := { call_args : TParams; chain : Chain }.

(** The promises [mutate] returned so far, by identity (the position in the
    list), next to the shared variables. *)
Record World := { scope : Scope; promises : list Call }.

Definition settlement (c : Completion TResult) : Settlement :=
  match c with
  | Normal r => Fulfilled r
  | Throw e => Rejected e
  end.

(** [mutate(...args)]. [started] is what [options.mutation(...args)] does:
    [None] when it returns its promise, [Some e] when it throws [e] first,
    which leaves [mutate] before [pendingPromise] is assigned. *)
Definition mutate (args : TParams) (started : option TError) (w : World)
    : World * Completion nat :=
  let s := set_status Loading (scope w) in
  match started with
  | Some e => ({| scope := s; promises := promises w |}, Throw e)
  | None =>
      let promise := length (promises w) in
      ({| scope := set_pendingPromise (Some promise) s;
          promises := promises w ++ [{| call_args := args; chain := AwaitingThen |}] |},
       Normal promise)
  end.

(** [reset()] *)
Definition reset (w : World) : World :=
  {| scope := set_status Pending (set_error None (set_data None (scope w)));
     promises := promises w |}.

(** The microtask that reacts to the user's promise of call [promise]
    settling as [o]: [onFulfilled] runs on a fulfilment, a rejection passes
    through [.then] (it has no rejection handler). *)
Definition run_then (promise : nat) (o : Settlement) (w : World) : World :=
  match promises w !! promise with
  | Some {| call_args := args; chain := AwaitingThen |} =>
      let '(s, o') :=
        match o with
        | Fulfilled _data =>
            let '(s, c) := onFulfilled promise args _data (scope w) in
            (s, settlement c)
        | Rejected e => (scope w, Rejected e)
        end in
      {| scope := s;
         promises := <[promise := {| call_args := args; chain := AwaitingCatch o' |}]>
                       (promises w) |}
  | _ => w
  end.

(** The microtask that reacts to the promise of [.then] being settled:
    [onRejected] runs on a rejection, a fulfilment passes through [.catch]. *)
Definition run_catch (promise : nat) (w : World) : World :=
  match promises w !! promise with
  | Some {| call_args := args; chain := AwaitingCatch o |} =>
      let '(s, o') :=
        match o with
        | Fulfilled r => (scope w, Fulfilled r)
        | Rejected e =>
            let '(s, c) := onRejected promise e (scope w) in
            (s, settlement c)
        end in
      {| scope := s;
         promises := <[promise := {| call_args := args; chain := Settled o' |}]>
                       (promises w) |}
  | _ => w
  end.

(** What the application and the event loop do, one turn at a time. *)
Inductive Event :=
| CallMutate (args : TParams) (started : option TError)
| CallReset
| RunThen (promise : nat) (o : Settlement)
| RunCatch (promise : nat).

Definition step (w : World) (ev : Event) : World :=
  match ev with
  | CallMutate args started => fst (mutate args started w)
  | CallReset => reset w
  | RunThen promise o => run_then promise o w
  | RunCatch promise => run_catch promise w
  end.

Fixpoint run (w : World) (evs : list Event) : World :=
  match evs with
  | [] => w
  | ev :: rest => run (step w ev) rest
  end.

(** The user's promise of call [promise] settles as [o] and both reactions
    run back to back. *)
Definition settle (promise : nat) (o : Settlement) : list Event :=
  [RunThen promise o; RunCatch promise].

(** How the promise that [mutate] returned has settled, if it has. *)
Definition returned (w : World) (promise : nat) : option Settlement :=
  match promises w !! promise with
  | Some {| chain := Settled o |} => Some o
  | _ => None
  end.

(** The state [useMutation] starts in: [shallowRef('pending')],
    [shallowRef()], [shallowRef(null)], and [pendingPromise = null]. *)
Definition init : World :=
  {| scope := {| status := Pending; data := None; error := None;
                 pendingPromise := None;
                 invalidated := []; keysCalls := [] |};
     promises := [] |}.

(** [isLoading: computed(() => status.value === 'loading')] *)
Definition isLoading (w : World) : bool :=
  bool_decide (status (scope w) = Loading).

(** ** What the invalidation loop does, in closed form *)

Definition log_all (ks : list UseQueryKey) (s : Scope) : Scope :=
  {| status := status s; data := data s; error := error s;
     pendingPromise := pendingPromise s;
     invalidated := invalidated s ++ ks; keysCalls := keysCalls s |}.

(** The keys of [ks] the loop passes to [store.invalidateEntry]: all of them up
    to the first one on which the store throws, that one included. *)
Fixpoint submitted (ks : list UseQueryKey) : list UseQueryKey :=
  match ks with
  | [] => []
  | key :: rest =>
      key :: match invalidateEntry store key with
             | Normal _ => submitted rest
             | Throw _ => []
             end
  end.

(** How the loop over [ks] completes. *)
Fixpoint loop_completion (ks : list UseQueryKey) : Completion unit :=
  match ks with
  | [] => Normal tt
  | key :: rest =>
      match invalidateEntry store key with
      | Normal _ => loop_completion rest
      | Throw e => Throw e
      end
  end.

(** The calls one run of the block [if (options.keys) { ... }] makes for the
    result [_data] of a call with [args]: the arguments [options.keys] is
    called with, the keys passed to [store.invalidateEntry], and how the block
    completes. *)
Definition invalidation (_data : TResult) (args : TParams)
    : list (TResult * TParams) * list UseQueryKey * Completion unit :=
  match keys options with
  | None => ([], [], Normal tt)
  | Some (KeysArray ks) => ([], submitted ks, loop_completion ks)
  | Some (KeysFunction f) =>
      match f _data args with
      | Normal ks => ([(_data, args)], submitted ks, loop_completion ks)
      | Throw e => ([(_data, args)], [], Throw e)
      end
  end.

(** What [onFulfilled] leaves behind when its call is the pending one. *)
Definition fulfilled_scope (_data : TResult) (args : TParams) (s : Scope) : Scope :=
  {| status := Success; data := Some _data; error := None;
     pendingPromise := pendingPromise s;
     invalidated := invalidated s ++ (invalidation _data args).1.2;
     keysCalls := keysCalls s ++ (invalidation _data args).1.1 |}.

Definition fulfilled_completion (_data : TResult) (args : TParams) : Completion TResult :=
  match (invalidation _data args).2 with
  | Normal _ => Normal _data
  | Throw e => Throw e
  end.

(** ** Events by kind *)

(** A reaction of some promise, as opposed to a call by the application. *)
Definition is_hop (ev : Event) : bool :=
  match ev with
  | RunThen _ _ | RunCatch _ => true
  | CallMutate _ _ | CallReset => false
  end.

(** A reaction of promise [p]. *)
Definition hop_of (p : nat) (ev : Event) : bool :=
  match ev with
  | RunThen q _ | RunCatch q => bool_decide (q = p)
  | CallMutate _ _ | CallReset => false
  end.

(** A reaction of a promise other than [p]. *)
Definition hop_of_other (p : nat) (ev : Event) : bool :=
  is_hop ev && negb (hop_of p ev).

(** An event that leaves promise [p] pending and its chain where it is:
    anything but a [mutate] call that returns a new promise and a reaction of
    [p] itself. *)
Definition inert (p : nat) (ev : Event) : bool :=
  match ev with
  | CallMutate _ None => false
  | CallMutate _ (Some _) => true
  | CallReset => true
  | RunThen q _ | RunCatch q => negb (bool_decide (q = p))
  end.

(** The reactions of promise [p] among [evs], in order. *)
Fixpoint only_hops_of (p : nat) (evs : list Event) : list Event :=
  match evs with
  | [] => []
  | ev :: rest =>
      if hop_of p ev then ev :: only_hops_of p rest else only_hops_of p rest
  end.

(** Every order in which the events of [l1] and of [l2] can run, each list
    keeping its own order. *)
Fixpoint interleavings (l1 : list Event) : list Event -> list (list Event) :=
  fix merge (l2 : list Event) : list (list Event) :=
    match l1, l2 with
    | [], _ => [l2]
    | _, [] => [l1]
    | x :: l1', y :: l2' =>
        map (cons x) (interleavings l1' l2) ++ map (cons y) (merge l2')
    end.

(** ** State predicates *)

(** [data] and [error] are not both present: mutual exclusion as the
    specification's data model words it. *)
Definition data_error_exclusive (s : Scope) : Prop :=
  data s = None \/ error s = None.

(** What [status] tells about [data] and [error]: under ['success'] the
    handler has set [error] to [null], under ['pending'] neither holds a
    value. *)
Definition consistent (s : Scope) : bool :=
  match status s with
  | Pending => bool_decide (data s = None /\ error s = None)
  | Success => bool_decide (error s = None)
  | Loading | Error => true
  end.

(** Two worlds that promise [p] cannot tell apart: same shared variables,
    same stage of [p]'s chain. *)
Definition agree (p : nat) (w w' : World) : Prop :=
  scope w = scope w' /\ promises w !! p = promises w' !! p.

(** ** More events by kind, and more state predicates *)

(** Not a [mutate] call whose operation throws before it returns a promise. *)
Definition no_failed_start (ev : Event) : bool :=
  match ev with
  | CallMutate _ (Some _) => false
  | _ => true
  end.

(** Not a call of [reset]. *)
Definition not_reset (ev : Event) : bool :=
  match ev with
  | CallReset => false
  | _ => true
  end.

(** Not the [.then] reaction to a fulfilment, the only place [onFulfilled]
    runs. *)
Definition no_fulfilment (ev : Event) : bool :=
  match ev with
  | RunThen _ (Fulfilled _) => false
  | _ => true
  end.

(** The promise the last [mutate] call that returned one has returned. *)
Definition latest (w : World) : option nat :=
  match length (promises w) with
  | O => None
  | S n => Some n
  end.

(** The pending promise has not run a handler yet: its [.then] reaction is to
    come, or a rejection has passed through [.then] and [onRejected] is to
    come. *)
Definition in_flight (w : World) : bool :=
  match pendingPromise (scope w) with
  | Some p =>
      match promises w !! p with
      | Some {| chain := AwaitingThen |} => true
      | Some {| chain := AwaitingCatch (Rejected _) |} => true
      | _ => false
      end
  | None => false
  end.

(** Calls made one after the other, each settled (fulfilled) before the next
    is made; [first] is the identity the first promise gets. *)
Fixpoint sequential (first : nat) (calls : list (TParams * TResult)) : list Event :=
  match calls with
  | [] => []
  | (args, result) :: rest =>
      CallMutate args None :: settle first (Fulfilled result)
        ++ sequential (S first) rest
  end.

End UseMutation.

(** * Concrete controllers

    Results are integers, the arguments of a call a list of integers, thrown
    values and cache keys strings. *)

Definition no_keys : @UseMutationOptions Z (list Z) string string :=
  {| keys := None |}.

Definition static_keys : @UseMutationOptions Z (list Z) string string :=
  {| keys := Some (KeysArray ["K1"; "K2"]) |}.

Definition function_keys : @UseMutationOptions Z (list Z) string string :=
  {| keys := Some (KeysFunction (fun result args =>
                 Normal (if decide (result = 0%Z) then ["todos"]
                         else ["todos"; "todo"]))) |}.

Definition throwing_keys : @UseMutationOptions Z (list Z) string string :=
  {| keys := Some (KeysFunction (fun _ _ => Throw "keys failed")) |}.

Definition quiet_store : @QueryCache string string :=
  {| invalidateEntry := fun _ => Normal tt |}.

Definition failing_store : @QueryCache string string :=
  {| invalidateEntry := fun _ => Throw "store failed" |}.

Definition three_keys : @UseMutationOptions Z (list Z) string string :=
  {| keys := Some (KeysArray ["K1"; "K2"; "K3"]) |}.

Definition function_three_keys : @UseMutationOptions Z (list Z) string string :=
  {| keys := Some (KeysFunction (fun _ _ => Normal ["K1"; "K2"; "K3"])) |}.

(** A store that throws on one key. *)
Definition picky_store : @QueryCache string string :=
  {| invalidateEntry := fun key =>
       if decide (key = "K2") then Throw "store failed" else Normal tt |}.

(** * Properties *)

Ltac js_unfold :=
  unfold onFulfilled, onRejected, store_invalidateEntry, call_keys,
    read, assign, complete, throw, mbind, mret, Js_bind, Js_ret in *.

Section Properties.
Context {TResult TParams TError UseQueryKey : Type}.
Variable options : @UseMutationOptions TResult TParams TError UseQueryKey.
Variable store : @QueryCache TError UseQueryKey.

#[local] Abbreviation Scope := (@Scope TResult TParams TError UseQueryKey).
#[local] Abbreviation World := (@World TResult TParams TError UseQueryKey).
#[local] Abbreviation Event := (@Event TResult TParams TError).
#[local] Abbreviation Settlement := (@Settlement TResult TError).

(** ** The invalidation loop *)

Lemma for_of_spec (ks : list UseQueryKey) (s : Scope) :
  for_of ks (store_invalidateEntry store) s
  = (log_all (submitted store ks) s, loop_completion store ks).
Proof.
  revert s. induction ks as [|key rest IH]; intros s; simpl.
  - js_unfold. unfold log_all. rewrite app_nil_r. by destruct s.
  - js_unfold. simpl. destruct (invalidateEntry store key) as [[]|e]; simpl.
    + rewrite IH. unfold log_all, log_invalidated; simpl.
      by rewrite <- app_assoc.
    + done.
Qed.

Lemma submitted_all (ks : list UseQueryKey) :
  Forall (fun key => invalidateEntry store key = Normal tt) ks ->
  submitted store ks = ks /\ loop_completion store ks = Normal tt.
Proof.
  induction 1 as [|key rest Hk _ [IH1 IH2]]; simpl; [done|].
  rewrite Hk. by rewrite IH1, IH2.
Qed.

(** ** The handlers *)

Lemma onFulfilled_stale (p : nat) (a : TParams) (r : TResult) (s : Scope) :
  pendingPromise s <> Some p ->
  onFulfilled options store p a r s = (s, Normal r).
Proof.
  intros Hp. js_unfold. simpl. by destruct (decide _).
Qed.

Lemma onRejected_stale (p : nat) (e : TError) (s : Scope) :
  pendingPromise s <> Some p ->
  onRejected p e s = (s, Throw e).
Proof.
  intros Hp. js_unfold. simpl. by destruct (decide _).
Qed.

Lemma onRejected_current (p : nat) (e : TError) (s : Scope) :
  pendingPromise s = Some p ->
  onRejected p e s = (set_status Error (set_error (Some e) s), Throw e).
Proof.
  intros Hp. js_unfold. simpl. by destruct (decide _).
Qed.

Lemma onFulfilled_current (p : nat) (a : TParams) (r : TResult) (s : Scope) :
  pendingPromise s = Some p ->
  onFulfilled options store p a r s
  = (fulfilled_scope options store r a s, fulfilled_completion options store r a).
Proof.
  intros Hp. unfold fulfilled_scope, fulfilled_completion, invalidation.
  js_unfold. simpl. destruct (decide _) as [_|]; [|done].
  destruct (keys options) as [[ks|f]|]; simpl.
  - rewrite for_of_spec. unfold log_all. simpl. rewrite app_nil_r.
    by destruct (loop_completion store ks).
  - destruct (f r a) as [ks|e]; simpl.
    + rewrite for_of_spec. unfold log_all. simpl.
      by destruct (loop_completion store ks).
    + by rewrite app_nil_r.
  - by rewrite !app_nil_r.
Qed.

(** ** Reactions, on worlds *)

Lemma run_then_pending (p : nat) (o : Settlement) (w : World) :
  pendingPromise (scope (run_then options store p o w)) = pendingPromise (scope w).
Proof.
  unfold run_then. destruct (promises w !! p) as [[a [| |]]|]; try done.
  destruct o as [r|e]; [|done].
  destruct (decide (pendingPromise (scope w) = Some p)) as [Hp|Hp].
  - by rewrite onFulfilled_current.
  - by rewrite onFulfilled_stale.
Qed.

Lemma run_catch_pending (p : nat) (w : World) :
  pendingPromise (scope (run_catch p w)) = pendingPromise (scope w).
Proof.
  unfold run_catch. destruct (promises w !! p) as [[a [|[r|e]|]]|]; try done.
  destruct (decide (pendingPromise (scope w) = Some p)) as [Hp|Hp].
  - by rewrite onRejected_current.
  - by rewrite onRejected_stale.
Qed.

Lemma run_then_stale (p : nat) (o : Settlement) (w : World) :
  pendingPromise (scope w) <> Some p ->
  scope (run_then options store p o w) = scope w.
Proof.
  intros Hp. unfold run_then.
  destruct (promises w !! p) as [[a [| |]]|]; try done.
  destruct o as [r|e]; [|done]. by rewrite onFulfilled_stale.
Qed.

Lemma run_catch_stale (p : nat) (w : World) :
  pendingPromise (scope w) <> Some p ->
  scope (run_catch p w) = scope w.
Proof.
  intros Hp. unfold run_catch.
  destruct (promises w !! p) as [[a [|[r|e]|]]|]; try done.
  by rewrite onRejected_stale.
Qed.

Lemma run_then_other (p q : nat) (o : Settlement) (w : World) :
  q <> p ->
  promises (run_then options store p o w) !! q = promises w !! q.
Proof.
  intros Hq. unfold run_then.
  destruct (promises w !! p) as [[a [| |]]|]; try done.
  destruct o as [r|e]; [destruct (onFulfilled _ _ _ _ _ _)|]; simpl;
    by rewrite list_lookup_insert_ne.
Qed.

Lemma run_catch_other (p q : nat) (w : World) :
  q <> p ->
  promises (run_catch p w) !! q = promises w !! q.
Proof.
  intros Hq. unfold run_catch.
  destruct (promises w !! p) as [[a [|[r|e]|]]|]; try done; simpl.
  - by rewrite list_lookup_insert_ne.
  - destruct (onRejected _ _ _); simpl. by rewrite list_lookup_insert_ne.
Qed.

Lemma run_then_agree (p : nat) (o : Settlement) (w w' : World) :
  agree p w w' ->
  agree p (run_then options store p o w) (run_then options store p o w').
Proof.
  intros [Hs Hl]. unfold run_then. rewrite <- Hl, <- Hs.
  destruct (promises w !! p) as [[a [| |]]|] eqn:E; try (split; congruence).
  assert (p < length (promises w)) by (by eapply lookup_lt_Some).
  assert (p < length (promises w')) by (eapply lookup_lt_Some; by rewrite <- Hl).
  destruct o as [r|e]; [destruct (onFulfilled _ _ _ _ _ _)|];
    (split; [done|]); simpl; by rewrite !list_lookup_insert_eq.
Qed.

Lemma run_catch_agree (p : nat) (w w' : World) :
  agree p w w' ->
  agree p (run_catch p w) (run_catch p w').
Proof.
  intros [Hs Hl]. unfold run_catch. rewrite <- Hl, <- Hs.
  destruct (promises w !! p) as [[a [|[r|e]|]]|] eqn:E; try (split; congruence).
  - assert (p < length (promises w)) by (by eapply lookup_lt_Some).
    assert (p < length (promises w')) by (eapply lookup_lt_Some; by rewrite <- Hl).
    split; [done|]; simpl; by rewrite !list_lookup_insert_eq.
  - assert (p < length (promises w)) by (by eapply lookup_lt_Some).
    assert (p < length (promises w')) by (eapply lookup_lt_Some; by rewrite <- Hl).
    destruct (onRejected _ _ _).
    split; [done|]; simpl; by rewrite !list_lookup_insert_eq.
Qed.

Lemma agree_refl (p : nat) (w : World) : agree p w w.
Proof. by split. Qed.

Lemma agree_trans (p : nat) (w1 w2 w3 : World) :
  agree p w1 w2 -> agree p w2 w3 -> agree p w1 w3.
Proof. intros [? ?] [? ?]. split; congruence. Qed.

(** A reaction of a promise that is not the pending one is invisible to the
    shared variables and to every other promise. *)
Lemma stale_hop_agree (p : nat) (ev : Event) (w : World) :
  pendingPromise (scope w) = Some p ->
  is_hop ev = true -> hop_of p ev = false ->
  agree p (step options store w ev) w.
Proof.
  intros Hp Hhop Hq. destruct ev as [| |q' o|q']; simpl in *; try done.
  - apply bool_decide_eq_false in Hq. split.
    + apply run_then_stale. rewrite Hp. congruence.
    + by apply run_then_other.
  - apply bool_decide_eq_false in Hq. split.
    + apply run_catch_stale. rewrite Hp. congruence.
    + by apply run_catch_other.
Qed.

Lemma hop_pending (ev : Event) (w : World) :
  is_hop ev = true ->
  pendingPromise (scope (step options store w ev)) = pendingPromise (scope w).
Proof.
  destruct ev; simpl; try done; intros _.
  - apply run_then_pending.
  - apply run_catch_pending.
Qed.

Lemma own_hop_agree (p : nat) (ev : Event) (w w' : World) :
  hop_of p ev = true ->
  agree p w w' ->
  agree p (step options store w ev) (step options store w' ev).
Proof.
  destruct ev as [| |q o|q]; simpl; try done; intros Hq%bool_decide_eq_true; subst q.
  - apply run_then_agree.
  - apply run_catch_agree.
Qed.

(** Among reactions run in any order, only those of the pending promise
    count. *)
Lemma others_invisible (p : nat) (evs : list Event) (w w' : World) :
  pendingPromise (scope w) = Some p ->
  forallb is_hop evs = true ->
  agree p w w' ->
  agree p (run options store w evs) (run options store w' (only_hops_of p evs)).
Proof.
  revert w w'. induction evs as [|ev rest IH]; intros w w' Hp Hall Hag; simpl; [done|].
  simpl in Hall. apply andb_prop in Hall as [Hev Hrest].
  destruct (hop_of p ev) eqn:Hq; simpl.
  - apply IH; [by rewrite hop_pending| done |by apply own_hop_agree].
  - apply IH; [by rewrite hop_pending| done |].
    eapply agree_trans; [|exact Hag]. by apply stale_hop_agree.
Qed.

Lemma others_only (p : nat) (evs : list Event) :
  forallb (hop_of_other p) evs = true ->
  forallb is_hop evs = true /\ only_hops_of p evs = [].
Proof.
  induction evs as [|ev rest IH]; simpl; [done|].
  intros [Hev Hrest]%andb_prop. apply andb_prop in Hev as [Hhop Hq].
  apply negb_true_iff in Hq. rewrite Hhop, Hq. simpl. by apply IH.
Qed.

(** Reactions of superseded promises change no shared variable. *)
Lemma stale_hops_scope (p : nat) (evs : list Event) (w : World) :
  pendingPromise (scope w) = Some p ->
  forallb (hop_of_other p) evs = true ->
  scope (run options store w evs) = scope w
  /\ promises (run options store w evs) !! p = promises w !! p.
Proof.
  intros Hp [Hall Hnone]%others_only.
  pose proof (others_invisible p evs w w Hp Hall (agree_refl p w)) as Hag.
  by rewrite Hnone in Hag.
Qed.

(** ** One settlement of the pending promise *)

Lemma mutate_lookup (w : World) (a : TParams) :
  promises (step options store w (CallMutate a None)) !! length (promises w)
  = Some {| call_args := a; chain := AwaitingThen |}.
Proof. simpl. by apply list_lookup_middle. Qed.

Lemma run_then_fulfilled (p : nat) (a : TParams) (r : TResult) (w : World) :
  pendingPromise (scope w) = Some p ->
  promises w !! p = Some {| call_args := a; chain := AwaitingThen |} ->
  run_then options store p (Fulfilled r) w
  = {| scope := fulfilled_scope options store r a (scope w);
       promises := <[p := {| call_args := a;
                             chain := AwaitingCatch
                               (settlement (fulfilled_completion options store r a)) |}]>
                     (promises w) |}.
Proof.
  intros Hp Hl. unfold run_then. rewrite Hl. by rewrite onFulfilled_current.
Qed.

Lemma run_then_rejected (p : nat) (a : TParams) (e : TError) (w : World) :
  promises w !! p = Some {| call_args := a; chain := AwaitingThen |} ->
  run_then options store p (Rejected e) w
  = {| scope := scope w;
       promises := <[p := {| call_args := a; chain := AwaitingCatch (Rejected e) |}]>
                     (promises w) |}.
Proof. intros Hl. unfold run_then. by rewrite Hl. Qed.

Lemma run_catch_rejected (p : nat) (a : TParams) (e : TError) (w : World) :
  pendingPromise (scope w) = Some p ->
  promises w !! p = Some {| call_args := a; chain := AwaitingCatch (Rejected e) |} ->
  run_catch p w
  = {| scope := set_status Error (set_error (Some e) (scope w));
       promises := <[p := {| call_args := a; chain := Settled (Rejected e) |}]>
                     (promises w) |}.
Proof.
  intros Hp Hl. unfold run_catch. rewrite Hl. by rewrite onRejected_current.
Qed.

Lemma run_catch_fulfilled (p : nat) (a : TParams) (r : TResult) (w : World) :
  promises w !! p = Some {| call_args := a; chain := AwaitingCatch (Fulfilled r) |} ->
  run_catch p w
  = {| scope := scope w;
       promises := <[p := {| call_args := a; chain := Settled (Fulfilled r) |}]>
                     (promises w) |}.
Proof. intros Hl. unfold run_catch. by rewrite Hl. Qed.

(** Neither reaction of a rejection calls the store or [options.keys]. *)
Lemma run_catch_logs (p : nat) (w : World) :
  invalidated (scope (run_catch p w)) = invalidated (scope w)
  /\ keysCalls (scope (run_catch p w)) = keysCalls (scope w)
  /\ data (scope (run_catch p w)) = data (scope w).
Proof.
  unfold run_catch. destruct (promises w !! p) as [[a [|[r|e]|]]|]; try done.
  destruct (decide (pendingPromise (scope w) = Some p)) as [Hp|Hp].
  - by rewrite onRejected_current.
  - by rewrite onRejected_stale.
Qed.

Lemma run_then_rejected_scope (p : nat) (e : TError) (w : World) :
  scope (run_then options store p (Rejected e) w) = scope w.
Proof.
  unfold run_then. by destruct (promises w !! p) as [[a [| |]]|].
Qed.

Lemma settle_rejected (p : nat) (a : TParams) (e : TError) (w : World) :
  pendingPromise (scope w) = Some p ->
  promises w !! p = Some {| call_args := a; chain := AwaitingThen |} ->
  run options store w (settle p (Rejected e))
  = {| scope := set_status Error (set_error (Some e) (scope w));
       promises := <[p := {| call_args := a; chain := Settled (Rejected e) |}]>
                     (promises w) |}.
Proof.
  intros Hp Hl. simpl. rewrite (run_then_rejected p a e w Hl).
  assert (p < length (promises w)) by (by eapply lookup_lt_Some).
  rewrite (run_catch_rejected p a e); simpl;
    [by rewrite list_insert_insert_eq | done | by rewrite list_lookup_insert_eq].
Qed.

Lemma settle_fulfilled (p : nat) (a : TParams) (r : TResult) (w : World) :
  pendingPromise (scope w) = Some p ->
  promises w !! p = Some {| call_args := a; chain := AwaitingThen |} ->
  run options store w (settle p (Fulfilled r))
  = {| scope := match fulfilled_completion options store r a with
                | Normal _ => fulfilled_scope options store r a (scope w)
                | Throw e =>
                    set_status Error
                      (set_error (Some e) (fulfilled_scope options store r a (scope w)))
                end;
       promises := <[p := {| call_args := a;
                             chain := Settled
                               (settlement (fulfilled_completion options store r a)) |}]>
                     (promises w) |}.
Proof.
  intros Hp Hl. simpl. rewrite (run_then_fulfilled p a r w Hp Hl).
  assert (p < length (promises w)) by (by eapply lookup_lt_Some).
  destruct (fulfilled_completion options store r a) as [r'|e]; simpl.
  - rewrite (run_catch_fulfilled p a r'); simpl;
      [by rewrite list_insert_insert_eq | by rewrite list_lookup_insert_eq].
  - rewrite (run_catch_rejected p a e); simpl;
      [by rewrite list_insert_insert_eq | done | by rewrite list_lookup_insert_eq].
Qed.

(** ** The claims *)

(** C6. A controller that [useMutation] has just returned, before any call of
    [mutate], has status ['pending'] (the not-yet-called state, idle in the
    specification's words), no data, no error, and [isLoading] false. *)
Theorem fresh_controller_is_idle :
  status (scope (init : World)) = Pending
  /\ data (scope (init : World)) = None
  /\ error (scope (init : World)) = None
  /\ isLoading (init : World) = false.
Proof. by repeat split. Qed.

(** C10. [mutate] sets the status to ['loading'] before it returns, whatever
    the user's operation does, and leaves [data] and [error] as they were; they
    stay so, and the status stays ['loading'], through every reaction of an
    earlier call that runs while the new call is the pending one. *)
Theorem mutate_loading_keeps_data_error
    (w : World) (a : TParams) (evs : list Event) :
  forallb (hop_of_other (length (promises w))) evs = true ->
  (forall started : option TError,
     let w1 := step options store w (CallMutate a started) in
     status (scope w1) = Loading /\ isLoading w1 = true
     /\ data (scope w1) = data (scope w) /\ error (scope w1) = error (scope w))
  /\ (let w2 := run options store (step options store w (CallMutate a None)) evs in
      status (scope w2) = Loading /\ isLoading w2 = true
      /\ data (scope w2) = data (scope w) /\ error (scope w2) = error (scope w)).
Proof.
  intros Hevs. split.
  - by intros [e|].
  - destruct (stale_hops_scope (length (promises w)) evs
                (step options store w (CallMutate a None))) as [Hs _]; [done..|].
    unfold isLoading. cbv zeta. by rewrite Hs.
Qed.

(** C9. When the user's operation rejects with [e] and the call is the pending
    one, the promise [mutate] returned rejects with [e], the status becomes
    ['error'], [error] holds [e], [data] is what it was, and neither the store
    nor [options.keys] is called. *)
Theorem rejection_is_recorded
    (w : World) (p : nat) (a : TParams) (e : TError) :
  pendingPromise (scope w) = Some p ->
  promises w !! p = Some {| call_args := a; chain := AwaitingThen |} ->
  let w' := run options store w (settle p (Rejected e)) in
  returned w' p = Some (Rejected e)
  /\ status (scope w') = Error
  /\ error (scope w') = Some e
  /\ data (scope w') = data (scope w)
  /\ invalidated (scope w') = invalidated (scope w)
  /\ keysCalls (scope w') = keysCalls (scope w).
Proof.
  intros Hp Hl w'. subst w'. rewrite (settle_rejected p a e w Hp Hl).
  assert (p < length (promises w)) by (by eapply lookup_lt_Some).
  unfold returned. simpl. by rewrite list_lookup_insert_eq.
Qed.

(** C7. [reset] clears [data] and [error] and sets the status to ['pending']
    (idle), in one step, and touches neither [pendingPromise] nor any promise
    nor the logs. So the call that was pending before the reset is still the
    pending one after it: when it fulfils with [r], [data] becomes [r] and the
    status ['success']; when it rejects with [e], [error] becomes [e] and the
    status ['error']. *)
Theorem reset_clears_and_keeps_pending (w : World) :
  let w0 := step options store w CallReset in
  (status (scope w0) = Pending /\ data (scope w0) = None /\ error (scope w0) = None)
  /\ (pendingPromise (scope w0) = pendingPromise (scope w)
      /\ promises w0 = promises w
      /\ invalidated (scope w0) = invalidated (scope w)
      /\ keysCalls (scope w0) = keysCalls (scope w))
  /\ (forall (p : nat) (a : TParams),
        pendingPromise (scope w) = Some p ->
        promises w !! p = Some {| call_args := a; chain := AwaitingThen |} ->
        (forall r : TResult,
           let w1 := step options store w0 (RunThen p (Fulfilled r)) in
           data (scope w1) = Some r /\ error (scope w1) = None
           /\ status (scope w1) = Success
           /\ data (scope (step options store w1 (RunCatch p))) = Some r)
        /\ (forall e : TError,
              let w2 := run options store w0 (settle p (Rejected e)) in
              error (scope w2) = Some e /\ status (scope w2) = Error
              /\ data (scope w2) = None)).
Proof.
  cbv zeta. split; [done|]. split; [done|].
  intros p a Hp Hl. split.
  - intros r. cbn [step].
    rewrite (run_then_fulfilled p a r (reset w) Hp Hl).
    repeat split.
    match goal with
    | |- data (scope (run_catch p ?W)) = _ =>
        by destruct (run_catch_logs p W) as (_ & _ & ->)
    end.
  - intros e. cbn [step]. by rewrite (settle_rejected p a e (reset w) Hp Hl).
Qed.

(** C4, as the code has it. With the static list [[K1; K2]] as
    [options.keys], a fulfilment of the pending call calls
    [store.invalidateEntry] once on [K1] and then, when that call returns, once
    on [K2]; when the call on [K1] throws, the loop is left and [K2] is not
    submitted. Both calls are made by the reaction of [.then]. A rejection, of
    any call, makes no call of the store. *)
Theorem static_keys_invalidated_in_order
    (K1 K2 : UseQueryKey) (w : World) (p : nat) (a : TParams) (r : TResult) :
  keys options = Some (KeysArray [K1; K2]) ->
  pendingPromise (scope w) = Some p ->
  promises w !! p = Some {| call_args := a; chain := AwaitingThen |} ->
  let calls := K1 :: match invalidateEntry store K1 with
                     | Normal _ => [K2]
                     | Throw _ => []
                     end in
  invalidated (scope (step options store w (RunThen p (Fulfilled r))))
    = invalidated (scope w) ++ calls
  /\ invalidated (scope (run options store w (settle p (Fulfilled r))))
    = invalidated (scope w) ++ calls
  /\ (forall (q : nat) (e : TError),
        invalidated (scope (run options store w (settle q (Rejected e))))
        = invalidated (scope w)).
Proof.
  intros Hkeys Hp Hl calls.
  assert (Hinv : forall s : Scope,
            invalidated (fulfilled_scope options store r a s) = invalidated s ++ calls).
  { intros s. unfold fulfilled_scope, invalidation, calls. rewrite Hkeys. simpl.
    destruct (invalidateEntry store K1); [|done].
    by destruct (invalidateEntry store K2). }
  split; [|split].
  - cbn [step]. rewrite (run_then_fulfilled p a r w Hp Hl). apply Hinv.
  - rewrite (settle_fulfilled p a r w Hp Hl). simpl.
    destruct (fulfilled_completion options store r a); apply Hinv.
  - intros q e. simpl.
    destruct (run_catch_logs q (run_then options store q (Rejected e) w)) as (-> & _).
    by rewrite run_then_rejected_scope.
Qed.

Lemma inert_step (p : nat) (c : Call) (ev : Event) (w : World) :
  pendingPromise (scope w) = Some p ->
  promises w !! p = Some c ->
  inert p ev = true ->
  let w' := step options store w ev in
  pendingPromise (scope w') = Some p /\ promises w' !! p = Some c
  /\ invalidated (scope w') = invalidated (scope w)
  /\ keysCalls (scope w') = keysCalls (scope w).
Proof.
  intros Hp Hl Hev. destruct ev as [a [e|]| |q o|q]; simpl in *; try done.
  - apply negb_true_iff, bool_decide_eq_false in Hev.
    assert (pendingPromise (scope w) <> Some q) by (rewrite Hp; congruence).
    rewrite run_then_pending, run_then_stale, run_then_other; done.
  - apply negb_true_iff, bool_decide_eq_false in Hev.
    assert (pendingPromise (scope w) <> Some q) by (rewrite Hp; congruence).
    rewrite run_catch_pending, run_catch_stale, run_catch_other; done.
Qed.

Lemma inert_run (p : nat) (c : Call) (evs : list Event) (w : World) :
  pendingPromise (scope w) = Some p ->
  promises w !! p = Some c ->
  forallb (inert p) evs = true ->
  let w' := run options store w evs in
  pendingPromise (scope w') = Some p /\ promises w' !! p = Some c
  /\ invalidated (scope w') = invalidated (scope w)
  /\ keysCalls (scope w') = keysCalls (scope w).
Proof.
  revert w. induction evs as [|ev rest IH]; intros w Hp Hl Hall; simpl; [done|].
  simpl in Hall. apply andb_prop in Hall as [Hev Hrest].
  destruct (inert_step p c ev w Hp Hl Hev) as (Hp' & Hl' & Hi & Hk).
  destruct (IH _ Hp' Hl' Hrest) as (? & ? & Hi' & Hk').
  repeat split; try done; simpl in *; congruence.
Qed.

(** C5, as the code has it. With a function as [options.keys]: a call
    [mutate(...a)] that is still the pending one when its operation fulfils
    with [r] (resets, reactions of other calls and failed starts may come in
    between; they call nothing) calls [options.keys] exactly once, with [r] and
    with [a], whatever the function and the store do. When the function
    returns [ks], the keys of [ks] are passed to [store.invalidateEntry] once
    each and in order, up to and including the first one on which the store
    throws: all of them when the store returns on each. When the function
    throws, the store is not called. *)
Theorem function_keys_called_once
    (f : TResult -> TParams -> Completion (list UseQueryKey))
    (w : World) (a : TParams) (r : TResult) (evs : list Event) :
  keys options = Some (KeysFunction f) ->
  forallb (inert (length (promises w))) evs = true ->
  let p := length (promises w) in
  let w1 := run options store (step options store w (CallMutate a None)) evs in
  let w' := run options store w1 (settle p (Fulfilled r)) in
  (keysCalls (scope w1) = keysCalls (scope w)
   /\ invalidated (scope w1) = invalidated (scope w))
  /\ keysCalls (scope w') = keysCalls (scope w) ++ [(r, a)]
  /\ invalidated (scope w')
     = invalidated (scope w) ++ match f r a with
                                | Normal ks => submitted store ks
                                | Throw _ => []
                                end
  /\ (forall ks : list UseQueryKey,
        f r a = Normal ks ->
        Forall (fun key => invalidateEntry store key = Normal tt) ks ->
        invalidated (scope w') = invalidated (scope w) ++ ks
        /\ returned w' p = Some (Fulfilled r)).
Proof.
  intros Hkeys Hevs p w1 w'.
  destruct (inert_run p {| call_args := a; chain := AwaitingThen |} evs
              (step options store w (CallMutate a None)))
    as (Hp & Hl & Hi & Hk); [done | apply mutate_lookup | done |].
  fold w1 in Hp, Hl, Hi, Hk. simpl in Hi, Hk.
  split; [done|].
  assert (p < length (promises w1)) by (by eapply lookup_lt_Some).
  subst w'. rewrite (settle_fulfilled p a r w1 Hp Hl).
  unfold fulfilled_completion, fulfilled_scope, returned, invalidation.
  rewrite Hkeys. simpl. rewrite list_lookup_insert_eq by done.
  rewrite <- Hi, <- Hk.
  destruct (f r a) as [ks|e] eqn:Hf; simpl.
  - split; [by destruct (loop_completion store ks)|].
    split; [by destruct (loop_completion store ks)|].
    intros ks' [= <-] Hok. destruct (submitted_all ks Hok) as [Hsub Hdone].
    by rewrite Hsub, Hdone.
  - by rewrite app_nil_r.
Qed.

(** ** Two calls in flight *)

Lemma two_mutates (w : World) (a b : TParams) :
  let w2 := run options store w [CallMutate a None; CallMutate b None] in
  pendingPromise (scope w2) = Some (S (length (promises w)))
  /\ promises w2 !! S (length (promises w))
     = Some {| call_args := b; chain := AwaitingThen |}.
Proof.
  simpl. rewrite length_app. simpl. rewrite Nat.add_1_r. split; [done|].
  apply list_lookup_middle. rewrite length_app. simpl. lia.
Qed.

Lemma interleaved_settlements (A B : nat) (oA oB : Settlement) (evs : list Event) :
  A <> B ->
  In evs (interleavings (settle A oA) (settle B oB)) ->
  forallb is_hop evs = true /\ only_hops_of B evs = settle B oB.
Proof.
  intros Hne Hin. simpl in Hin.
  repeat (destruct Hin as [<-|Hin]); try done; simpl;
    rewrite ?(bool_decide_eq_false_2 (A = B)) by done;
    rewrite ?(bool_decide_eq_true_2 (B = B)) by done; done.
Qed.

(** C1. Call A is made, then call B before A's operation settles. Whatever
    the two operations settle with, and in whatever order the four reactions
    run (each call's [.then] reaction before its [.catch] reaction), the
    shared variables and the logs of store and [options.keys] calls end as if
    only B had settled; A settling changes none of them; and when B fulfils
    with [rB], [data] ends as [rB]. *)
Theorem last_initiated_wins
    (w : World) (a b : TParams) (oA oB : Settlement) (evs : list Event) :
  let A := length (promises w) in
  let B := S A in
  let w2 := run options store w [CallMutate a None; CallMutate b None] in
  In evs (interleavings (settle A oA) (settle B oB)) ->
  scope (run options store w2 (settle A oA)) = scope w2
  /\ scope (run options store w2 (settle B oB ++ settle A oA))
     = scope (run options store w2 (settle B oB))
  /\ scope (run options store w2 evs) = scope (run options store w2 (settle B oB))
  /\ (forall rB : TResult,
        oB = Fulfilled rB -> data (scope (run options store w2 evs)) = Some rB).
Proof.
  intros A B w2 Hin.
  destruct (two_mutates w a b) as [Hp Hl]. fold w2 B in Hp, Hl.
  assert (Hne : A <> B) by (unfold B; lia).
  assert (Hall : forall evs', In evs' (interleavings (settle A oA) (settle B oB)) ->
            scope (run options store w2 evs') = scope (run options store w2 (settle B oB))).
  { intros evs' Hin'.
    destruct (interleaved_settlements A B oA oB evs' Hne Hin') as [Hhops Honly].
    pose proof (others_invisible B evs' w2 w2 Hp Hhops (agree_refl B w2)) as [Hs _].
    by rewrite Honly in Hs. }
  split; [|split; [|split]].
  - apply (stale_hops_scope B); [done|]. unfold hop_of_other. simpl.
    by rewrite (bool_decide_eq_false_2 (A = B)).
  - apply Hall. simpl. tauto.
  - by apply Hall.
  - intros rB ->. rewrite (Hall evs Hin).
    rewrite (settle_fulfilled B b rB w2 Hp Hl). simpl.
    by destruct (fulfilled_completion options store rB b).
Qed.

(** ** What the status tells *)

Lemma step_consistent (w : World) (ev : Event) :
  consistent (scope w) = true ->
  consistent (scope (step options store w ev)) = true.
Proof.
  intros Hc. destruct ev as [a [e|]| |p o|p]; simpl; try done.
  - unfold run_then. destruct (promises w !! p) as [[a [| |]]|]; try done.
    destruct o as [r|e]; [|done].
    destruct (decide (pendingPromise (scope w) = Some p)) as [Hp|Hp].
    + rewrite onFulfilled_current by done. by unfold consistent.
    + by rewrite onFulfilled_stale.
  - unfold run_catch. destruct (promises w !! p) as [[a [|[r|e]|]]|]; try done.
    destruct (decide (pendingPromise (scope w) = Some p)) as [Hp|Hp].
    + rewrite onRejected_current by done. by unfold consistent.
    + by rewrite onRejected_stale.
Qed.

(** C8, as the code has it. In every state the controller can reach, by any
    calls of [mutate] and [reset] and any reactions in any order: under status
    ['success'] [error] is absent, and under status ['pending'] (idle) [data]
    and [error] are both absent; so [data] and [error] are never both present
    under these two statuses. Under ['error'] and ['loading'] they may be: a
    rejection leaves the [data] of an earlier success in place, and [mutate]
    clears neither. *)
Theorem reachable_consistent (evs : list Event) :
  consistent (scope (run options store init evs)) = true
  /\ (status (scope (run options store init evs)) = Success
      \/ status (scope (run options store init evs)) = Pending ->
      data_error_exclusive (scope (run options store init evs))).
Proof.
  assert (H : forall w : World, consistent (scope w) = true ->
            consistent (scope (run options store w evs)) = true).
  { induction evs as [|ev rest IH]; intros w Hw; simpl; [done|].
    apply IH. by apply step_consistent. }
  assert (Hc : consistent (scope (run options store init evs)) = true) by (by apply H).
  split; [done|]. unfold consistent, data_error_exclusive in *.
  intros [Hs|Hs]; rewrite Hs in Hc; apply bool_decide_eq_true in Hc.
  - by right.
  - left. by destruct Hc.
Qed.

(** ** The promise a call gets back *)

Lemma settle_stale (p : nat) (a : TParams) (o : Settlement) (w : World) :
  pendingPromise (scope w) <> Some p ->
  promises w !! p = Some {| call_args := a; chain := AwaitingThen |} ->
  run options store w (settle p o)
  = {| scope := scope w;
       promises := <[p := {| call_args := a; chain := Settled o |}]> (promises w) |}.
Proof.
  intros Hp Hl. simpl.
  assert (p < length (promises w)) by (by eapply lookup_lt_Some).
  unfold run_then. rewrite Hl. destruct o as [r|e].
  - rewrite onFulfilled_stale by done. simpl.
    rewrite (run_catch_fulfilled p a r); simpl;
      [by rewrite list_insert_insert_eq | by rewrite list_lookup_insert_eq].
  - unfold run_catch. simpl. rewrite list_lookup_insert_eq by done.
    rewrite onRejected_stale by done. simpl. by rewrite list_insert_insert_eq.
Qed.

(** X1. The promise [mutate] returned settles as the operation of its own call
    did, whether the call was superseded or not, as long as the invalidation
    that follows a fulfilment of the pending call completes. *)
Theorem returned_is_own_outcome
    (w : World) (p : nat) (a : TParams) (o : Settlement) :
  promises w !! p = Some {| call_args := a; chain := AwaitingThen |} ->
  pendingPromise (scope w) <> Some p
  \/ (forall r : TResult,
        o = Fulfilled r -> (invalidation options store r a).2 = Normal tt) ->
  returned (run options store w (settle p o)) p = Some o.
Proof.
  intros Hl Hcase.
  assert (p < length (promises w)) by (by eapply lookup_lt_Some).
  destruct (decide (pendingPromise (scope w) = Some p)) as [Hp|Hp].
  - destruct Hcase as [Hne|Hok]; [done|]. destruct o as [r|e].
    + rewrite (settle_fulfilled p a r w Hp Hl). unfold returned, fulfilled_completion.
      simpl. rewrite list_lookup_insert_eq by done. by rewrite (Hok r eq_refl).
    + rewrite (settle_rejected p a e w Hp Hl). unfold returned. simpl.
      by rewrite list_lookup_insert_eq.
  - rewrite (settle_stale p a o w Hp Hl). unfold returned. simpl.
    by rewrite list_lookup_insert_eq.
Qed.

(** X2. When the operation of the pending call fulfils with [r] and the
    invalidation completes, the status ends as ['success'], [data] as [r],
    [error] absent, and the returned promise fulfils with [r]. *)
Theorem success_is_recorded
    (w : World) (p : nat) (a : TParams) (r : TResult) :
  pendingPromise (scope w) = Some p ->
  promises w !! p = Some {| call_args := a; chain := AwaitingThen |} ->
  (invalidation options store r a).2 = Normal tt ->
  let w' := run options store w (settle p (Fulfilled r)) in
  status (scope w') = Success /\ data (scope w') = Some r
  /\ error (scope w') = None /\ returned w' p = Some (Fulfilled r).
Proof.
  intros Hp Hl Hok w'. subst w'. rewrite (settle_fulfilled p a r w Hp Hl).
  assert (p < length (promises w)) by (by eapply lookup_lt_Some).
  unfold returned, fulfilled_completion. rewrite Hok. simpl.
  by rewrite list_lookup_insert_eq.
Qed.

(** X3. When the invalidation throws [e] after the operation of the pending
    call fulfilled with [r], the status ends as ['error'], [error] as [e], [data] as
    [r], and the returned promise rejects with [e]. *)
Theorem invalidation_failure_is_recorded_as_error
    (w : World) (p : nat) (a : TParams) (r : TResult) (e : TError) :
  pendingPromise (scope w) = Some p ->
  promises w !! p = Some {| call_args := a; chain := AwaitingThen |} ->
  (invalidation options store r a).2 = Throw e ->
  let w' := run options store w (settle p (Fulfilled r)) in
  status (scope w') = Error /\ data (scope w') = Some r
  /\ error (scope w') = Some e /\ returned w' p = Some (Rejected e).
Proof.
  intros Hp Hl Hko w'. subst w'. rewrite (settle_fulfilled p a r w Hp Hl).
  assert (p < length (promises w)) by (by eapply lookup_lt_Some).
  unfold returned, fulfilled_completion. rewrite Hko. simpl.
  by rewrite list_lookup_insert_eq.
Qed.

End Properties.

(** * The claims at concrete controllers *)

(** C1 at work: call 0 (result 1) is superseded by call 1 (result 2); call 1
    settles first, call 0 after it. *)
Lemma last_initiated_wins_witness :
  In (A := list (@Event Z (list Z) string))
     (settle 1 (Fulfilled 2%Z) ++ settle 0 (Fulfilled 1%Z))
     (interleavings (settle 0 (Fulfilled 1%Z)) (settle 1 (Fulfilled 2%Z)))
  /\ data (scope (run static_keys quiet_store
                    (run static_keys quiet_store init
                       [CallMutate [10%Z] None; CallMutate [20%Z] None])
                    (settle 1 (Fulfilled 2%Z) ++ settle 0 (Fulfilled 1%Z))))
     = Some 2%Z.
Proof.
  assert (Hin : In (A := list (@Event Z (list Z) string))
                  (settle 1 (Fulfilled 2%Z) ++ settle 0 (Fulfilled 1%Z))
                  (interleavings (settle 0 (Fulfilled 1%Z)) (settle 1 (Fulfilled 2%Z)))).
  { simpl. tauto. }
  split; [exact Hin|].
  exact (proj2 (proj2 (proj2
    (last_initiated_wins static_keys quiet_store init [10%Z] [20%Z]
       (Fulfilled 1%Z) (Fulfilled 2%Z) _ Hin))) 2%Z eq_refl).
Defined.

(** C4 at work: one call in flight, [keys = ["K1"; "K2"]], a store that
    returns. *)
Lemma static_keys_invalidated_in_order_witness :
  invalidated (scope (run static_keys quiet_store
                        (run static_keys quiet_store init [CallMutate [10%Z] None])
                        (settle 0 (Fulfilled 42%Z))))
  = ["K1"; "K2"].
Proof.
  pose proof (static_keys_invalidated_in_order static_keys quiet_store "K1" "K2"
                (run static_keys quiet_store init [CallMutate [10%Z] None])
                0 [10%Z] 42%Z eq_refl eq_refl eq_refl) as H.
  cbv zeta in H. exact (proj1 (proj2 H)).
Defined.

(** C4 as worded fails: with [keys = ["K1"; "K2"]] and a store that throws,
    the operation of the pending call fulfils with 42 and the store is called
    on K1 only. *)
Lemma static_keys_second_key_not_submitted :
  let w := run static_keys failing_store init
             (CallMutate [10%Z] None :: settle 0 (Fulfilled 42%Z)) in
  data (scope w) = Some 42%Z
  /\ invalidated (scope w) = ["K1"].
Proof. by split. Qed.

(** C5 at work: [mutate(5)], a [reset], then the operation fulfils with 42. *)
Lemma function_keys_called_once_witness :
  keysCalls (scope (run function_keys quiet_store init
                      ([CallMutate [5%Z] None; CallReset] ++ settle 0 (Fulfilled 42%Z))))
  = [(42%Z, [5%Z])]
  /\ invalidated (scope (run function_keys quiet_store init
                      ([CallMutate [5%Z] None; CallReset] ++ settle 0 (Fulfilled 42%Z))))
  = ["todos"; "todo"].
Proof.
  pose proof (function_keys_called_once function_keys quiet_store
                (fun result _ => Normal (if decide (result = 0%Z) then ["todos"]
                                         else ["todos"; "todo"]))
                init [5%Z] 42%Z [CallReset] eq_refl eq_refl) as H.
  cbv zeta in H. destruct H as (_ & Hk & Hi & _). split; [exact Hk|exact Hi].
Defined.

(** C5 as worded fails: the function returns K1, K2, K3, the store throws on
    K2, and K3 is never forwarded. *)
Lemma function_keys_third_key_not_forwarded :
  let w := run function_three_keys picky_store init
             (CallMutate [5%Z] None :: settle 0 (Fulfilled 42%Z)) in
  keysCalls (scope w) = [(42%Z, [5%Z])]
  /\ data (scope w) = Some 42%Z
  /\ invalidated (scope w) = ["K1"; "K2"].
Proof. by repeat split. Qed.

(** C7 at work: call 0 succeeded with 7, call 1 is in flight, [reset] is
    called, then call 1 fulfils with 9. *)
Lemma reset_clears_and_keeps_pending_witness :
  data (scope (run no_keys quiet_store init
                 ([CallMutate [10%Z] None] ++ settle 0 (Fulfilled 7%Z)
                  ++ [CallMutate [20%Z] None])))
  = Some 7%Z
  /\ data (scope (run no_keys quiet_store init
                 ([CallMutate [10%Z] None] ++ settle 0 (Fulfilled 7%Z)
                  ++ [CallMutate [20%Z] None; CallReset])))
  = None
  /\ data (scope (run no_keys quiet_store init
                 ([CallMutate [10%Z] None] ++ settle 0 (Fulfilled 7%Z)
                  ++ [CallMutate [20%Z] None; CallReset; RunThen 1 (Fulfilled 9%Z)])))
  = Some 9%Z.
Proof.
  pose proof (reset_clears_and_keeps_pending no_keys quiet_store
                (run no_keys quiet_store init
                   ([CallMutate [10%Z] None] ++ settle 0 (Fulfilled 7%Z)
                    ++ [CallMutate [20%Z] None]))) as H.
  cbv zeta in H. destruct H as ((_ & Hd & _) & _ & Hlater).
  destruct (Hlater 1 [20%Z] eq_refl eq_refl) as [Hful _].
  destruct (Hful 9%Z) as (Hd9 & _).
  split; [reflexivity|]. split; [exact Hd|exact Hd9].
Defined.

(** C9 at work: call 0 succeeded with 7, then call 1 rejects. *)
Lemma rejection_is_recorded_witness :
  returned (run no_keys quiet_store init
              ([CallMutate [10%Z] None] ++ settle 0 (Fulfilled 7%Z)
               ++ [CallMutate [20%Z] None] ++ settle 1 (Rejected "E"))) 1
  = Some (Rejected "E")
  /\ data (scope (run no_keys quiet_store init
              ([CallMutate [10%Z] None] ++ settle 0 (Fulfilled 7%Z)
               ++ [CallMutate [20%Z] None] ++ settle 1 (Rejected "E"))))
  = Some 7%Z.
Proof.
  pose proof (rejection_is_recorded no_keys quiet_store
                (run no_keys quiet_store init
                   ([CallMutate [10%Z] None] ++ settle 0 (Fulfilled 7%Z)
                    ++ [CallMutate [20%Z] None]))
                1 [20%Z] "E" eq_refl eq_refl) as H.
  cbv zeta in H. destruct H as (Hr & _ & _ & Hd & _).
  split; [exact Hr|exact Hd].
Defined.

(** C10 at work: call 0 succeeded with 7 and call 1 is in flight when
    [mutate] is called again; call 1 then fulfils with 8, superseded. *)
Lemma mutate_loading_keeps_data_error_witness :
  forallb (hop_of_other 2) (settle 1 (Fulfilled 8%Z) : list (@Event Z (list Z) string))
  = true
  /\ status (scope (run no_keys quiet_store init
              ([CallMutate [10%Z] None] ++ settle 0 (Fulfilled 7%Z)
               ++ [CallMutate [20%Z] None; CallMutate [30%Z] None]
               ++ settle 1 (Fulfilled 8%Z))))
  = Loading
  /\ data (scope (run no_keys quiet_store init
              ([CallMutate [10%Z] None] ++ settle 0 (Fulfilled 7%Z)
               ++ [CallMutate [20%Z] None; CallMutate [30%Z] None]
               ++ settle 1 (Fulfilled 8%Z))))
  = Some 7%Z.
Proof.
  split; [reflexivity|].
  pose proof (mutate_loading_keeps_data_error no_keys quiet_store
                (run no_keys quiet_store init
                   ([CallMutate [10%Z] None] ++ settle 0 (Fulfilled 7%Z)
                    ++ [CallMutate [20%Z] None]))
                [30%Z] (settle 1 (Fulfilled 8%Z)) eq_refl) as H.
  cbv zeta in H. destruct H as (_ & Hs & _ & Hd & _).
  split; [exact Hs|exact Hd].
Defined.

(** C8 as the specification words it fails: after a success (42) followed by
    a failure (E), [data] and [error] are both present. *)
Lemma data_and_error_both_present :
  let w := run no_keys quiet_store init
             ([CallMutate [10%Z] None] ++ settle 0 (Fulfilled 42%Z)
              ++ [CallMutate [20%Z] None] ++ settle 1 (Rejected "E")) in
  data (scope w) = Some 42%Z /\ error (scope w) = Some "E"
  /\ status (scope w) = Error
  /\ (data_error_exclusive (scope w) <-> False).
Proof.
  cbv zeta. repeat split; try done. by intros [H|H].
Qed.

(** C3: the code at two inputs on which the invalidation fails after the
    operation fulfilled with 42 as the pending call. The reaction of [.then]
    records ['success']; the reaction of [.catch], which handles what
    [onFulfilled] throws as it handles the operation's own rejection, then
    records ['error'] and the thrown value. First [options.keys] throws, then
    [store.invalidateEntry] does. *)
Theorem invalidation_failure_flips_status :
  (let w1 := run throwing_keys quiet_store init
               [CallMutate [10%Z] None; RunThen 0 (Fulfilled 42%Z)] in
   let w2 := step throwing_keys quiet_store w1 (RunCatch 0) in
   status (scope w1) = Success /\ error (scope w1) = None
   /\ status (scope w2) = Error /\ error (scope w2) = Some "keys failed"
   /\ data (scope w2) = Some 42%Z)
  /\ (let w1 := run static_keys failing_store init
                  [CallMutate [10%Z] None; RunThen 0 (Fulfilled 42%Z)] in
      let w2 := step static_keys failing_store w1 (RunCatch 0) in
      status (scope w1) = Success /\ error (scope w1) = None
      /\ status (scope w2) = Error /\ error (scope w2) = Some "store failed"
      /\ data (scope w2) = Some 42%Z
      /\ invalidated (scope w2) = ["K1"]).
Proof. cbv zeta. by repeat split. Qed.

(** C2: the code at the same inputs. The operation of the only call fulfils
    with 42, and the promise [mutate] returned rejects, with what the
    invalidation threw. *)
Theorem invalidation_failure_rejects_returned_promise :
  returned (run throwing_keys quiet_store init
              (CallMutate [10%Z] None :: settle 0 (Fulfilled 42%Z))) 0
  = Some (Rejected "keys failed")
  /\ returned (run static_keys failing_store init
              (CallMutate [10%Z] None :: settle 0 (Fulfilled 42%Z))) 0
  = Some (Rejected "store failed").
Proof. by split. Qed.

(** A superseded call still gets its own result: call 0 (result 1) settles
    after call 1 was made. *)
Lemma returned_is_own_outcome_witness :
  returned (run static_keys quiet_store init
              ([CallMutate [10%Z] None; CallMutate [20%Z] None]
               ++ settle 0 (Fulfilled 1%Z))) 0
  = Some (Fulfilled 1%Z).
Proof.
  apply (returned_is_own_outcome static_keys quiet_store
           (run static_keys quiet_store init
              [CallMutate [10%Z] None; CallMutate [20%Z] None])
           0 [10%Z] (Fulfilled 1%Z)).
  - reflexivity.
  - left. simpl. discriminate.
Defined.

Lemma success_is_recorded_witness :
  status (scope (run static_keys quiet_store init
                   (CallMutate [10%Z] None :: settle 0 (Fulfilled 42%Z))))
  = Success
  /\ data (scope (run static_keys quiet_store init
                   (CallMutate [10%Z] None :: settle 0 (Fulfilled 42%Z))))
  = Some 42%Z.
Proof.
  pose proof (success_is_recorded static_keys quiet_store
                (run static_keys quiet_store init [CallMutate [10%Z] None])
                0 [10%Z] 42%Z eq_refl eq_refl eq_refl) as H.
  cbv zeta in H. destruct H as (Hs & Hd & _). split; [exact Hs|exact Hd].
Defined.

Lemma invalidation_failure_is_recorded_as_error_witness :
  status (scope (run throwing_keys quiet_store init
                   (CallMutate [10%Z] None :: settle 0 (Fulfilled 42%Z))))
  = Error
  /\ returned (run throwing_keys quiet_store init
                 (CallMutate [10%Z] None :: settle 0 (Fulfilled 42%Z))) 0
  = Some (Rejected "keys failed").
Proof.
  pose proof (invalidation_failure_is_recorded_as_error throwing_keys quiet_store
                (run throwing_keys quiet_store init [CallMutate [10%Z] None])
                0 [10%Z] 42%Z "keys failed" eq_refl eq_refl eq_refl) as H.
  cbv zeta in H. destruct H as (Hs & _ & _ & Hr). split; [exact Hs|exact Hr].
Defined.

(** * Further behaviour of [mutate], [reset] and the handlers *)

Section Behaviour.
Context {TResult TParams TError UseQueryKey : Type}.
Variable options : @UseMutationOptions TResult TParams TError UseQueryKey.
Variable store : @QueryCache TError UseQueryKey.

#[local] Abbreviation Scope := (@Scope TResult TParams TError UseQueryKey).
#[local] Abbreviation World := (@World TResult TParams TError UseQueryKey).
#[local] Abbreviation Event := (@Event TResult TParams TError).
#[local] Abbreviation Settlement := (@Settlement TResult TError).

(** ** Promise identities *)

Lemma run_then_length (p : nat) (o : Settlement) (w : World) :
  length (promises (run_then options store p o w)) = length (promises w).
Proof.
  unfold run_then. destruct (promises w !! p) as [[a [| |]]|]; try done.
  destruct o as [r|e]; [destruct (onFulfilled _ _ _ _ _ _)|]; simpl;
    by rewrite length_insert.
Qed.

Lemma run_catch_length (p : nat) (w : World) :
  length (promises (run_catch p w)) = length (promises w).
Proof.
  unfold run_catch. destruct (promises w !! p) as [[a [|[r|e]|]]|]; try done; simpl.
  - by rewrite length_insert.
  - destruct (onRejected _ _ _). simpl. by rewrite length_insert.
Qed.

Lemma step_latest (w : World) (ev : Event) :
  pendingPromise (scope w) = latest w ->
  pendingPromise (scope (step options store w ev)) = latest (step options store w ev).
Proof.
  intros Hw. destruct ev as [a [e|]| |p o|p]; simpl; try done.
  - unfold latest. simpl. rewrite length_app. simpl. by rewrite Nat.add_1_r.
  - rewrite run_then_pending. unfold latest. by rewrite run_then_length.
  - rewrite run_catch_pending. unfold latest. by rewrite run_catch_length.
Qed.

Lemma pending_is_latest (evs : list Event) :
  pendingPromise (scope (run options store init evs))
  = latest (run options store init evs).
Proof.
  assert (H : forall w : World, pendingPromise (scope w) = latest w ->
            pendingPromise (scope (run options store w evs))
            = latest (run options store w evs)).
  { induction evs as [|ev rest IH]; intros w Hw; simpl; [done|].
    apply IH. by apply step_latest. }
  by apply H.
Qed.

(** X4. However many calls were made and whatever happened before, only the
    call made last counts: the reactions of every earlier call, in any order
    and with any outcome, change neither [status], [data], [error] nor the
    logs of store and [options.keys] calls. *)
Theorem only_latest_call_counts (evs hops : list Event) (n : nat) :
  length (promises (run options store init evs)) = S n ->
  forallb (hop_of_other n) hops = true ->
  scope (run options store (run options store init evs) hops)
  = scope (run options store init evs).
Proof.
  intros Hlen Hhops.
  apply (stale_hops_scope options store n); [|done].
  rewrite pending_is_latest. unfold latest. by rewrite Hlen.
Qed.

(** ** What never reaches the cache *)

Lemma step_no_fulfilment_logs (w : World) (ev : Event) :
  no_fulfilment ev = true ->
  invalidated (scope (step options store w ev)) = invalidated (scope w)
  /\ keysCalls (scope (step options store w ev)) = keysCalls (scope w).
Proof.
  intros Hev. destruct ev as [a [e|]| |p [r|e]|p]; simpl in *; try done.
  - by rewrite run_then_rejected_scope.
  - by destruct (run_catch_logs p w) as (-> & -> & _).
Qed.

(** X5. Without the fulfilment of an operation nothing is invalidated:
    calls of [mutate] (started or failed), calls of [reset], rejections and
    every [.catch] reaction leave the store and [options.keys] uncalled. *)
Theorem no_fulfilment_no_invalidation (w : World) (evs : list Event) :
  forallb no_fulfilment evs = true ->
  invalidated (scope (run options store w evs)) = invalidated (scope w)
  /\ keysCalls (scope (run options store w evs)) = keysCalls (scope w).
Proof.
  revert w. induction evs as [|ev rest IH]; intros w Hall; simpl; [done|].
  simpl in Hall. apply andb_prop in Hall as [Hev Hrest].
  destruct (IH (step options store w ev) Hrest) as [-> ->].
  by apply step_no_fulfilment_logs.
Qed.

Lemma step_no_keys_logs (w : World) (ev : Event) :
  keys options = None ->
  invalidated (scope (step options store w ev)) = invalidated (scope w)
  /\ keysCalls (scope (step options store w ev)) = keysCalls (scope w).
Proof.
  intros Hnone. destruct (no_fulfilment ev) eqn:Hev;
    [by apply step_no_fulfilment_logs|].
  destruct ev as [| |p [r|e]|]; try done. simpl. unfold run_then.
  destruct (promises w !! p) as [[a [| |]]|]; try done.
  destruct (decide (pendingPromise (scope w) = Some p)) as [Hp|Hp].
  - rewrite onFulfilled_current by done. simpl. unfold invalidation.
    rewrite Hnone. simpl. by rewrite !app_nil_r.
  - by rewrite onFulfilled_stale.
Qed.

(** X6. When [options.keys] is left out, no run of the controller ever calls
    the store. *)
Theorem no_keys_never_invalidates (w : World) (evs : list Event) :
  keys options = None ->
  invalidated (scope (run options store w evs)) = invalidated (scope w).
Proof.
  intros Hnone. revert w. induction evs as [|ev rest IH]; intros w; simpl; [done|].
  rewrite IH. by apply step_no_keys_logs.
Qed.

(** ** The status after a call *)

Lemma step_not_pending (w : World) (ev : Event) :
  not_reset ev = true ->
  status (scope w) <> Pending ->
  status (scope (step options store w ev)) <> Pending.
Proof.
  intros Hev Hw. destruct ev as [a [e|]| |p o|p]; simpl in *; try done.
  - unfold run_then. destruct (promises w !! p) as [[a [| |]]|]; try done.
    destruct o as [r|e]; [|done].
    destruct (decide (pendingPromise (scope w) = Some p)) as [Hp|Hp].
    + by rewrite onFulfilled_current.
    + by rewrite onFulfilled_stale.
  - unfold run_catch. destruct (promises w !! p) as [[a [|[r|e]|]]|]; try done.
    destruct (decide (pendingPromise (scope w) = Some p)) as [Hp|Hp].
    + by rewrite onRejected_current.
    + by rewrite onRejected_stale.
Qed.

(** X7. Once [mutate] has been called, the status is ['loading'], ['success']
    or ['error'] and never ['pending'] again, until [reset] is called. *)
Theorem pending_only_by_reset
    (w : World) (a : TParams) (started : option TError) (evs : list Event) :
  forallb not_reset evs = true ->
  let s := status (scope (run options store
                            (step options store w (CallMutate a started)) evs)) in
  s = Loading \/ s = Success \/ s = Error.
Proof.
  intros Hevs s.
  assert (H : forall w' : World, status (scope w') <> Pending ->
            status (scope (run options store w' evs)) <> Pending).
  { clear s. induction evs as [|ev rest IH]; intros w' Hw'; simpl; [done|].
    simpl in Hevs. apply andb_prop in Hevs as [Hev Hrest].
    apply IH; [done|]. by apply step_not_pending. }
  assert (Hs : s <> Pending) by (apply H; by destruct started).
  destruct s; auto. done.
Qed.

(** ** Empty and failing invalidations *)

(** X8. An empty array as [options.keys] behaves as no [keys] at all: from
    any state, every run ends in the same state under both. *)
Theorem empty_keys_like_no_keys (w : World) (evs : list Event) :
  run {| keys := Some (KeysArray []) |} store w evs
  = run {| keys := None |} store w evs.
Proof.
  revert w. induction evs as [|ev rest IH]; intros w; simpl; [done|].
  by rewrite IH.
Qed.

Lemma submitted_stops (ks1 ks2 : list UseQueryKey) (key : UseQueryKey) (e : TError) :
  Forall (fun k => invalidateEntry store k = Normal tt) ks1 ->
  invalidateEntry store key = Throw e ->
  submitted store (ks1 ++ key :: ks2) = ks1 ++ [key]
  /\ loop_completion store (ks1 ++ key :: ks2) = Throw e.
Proof.
  intros Hok Hko. induction Hok as [|k rest Hk _ [IH1 IH2]]; simpl.
  - by rewrite Hko.
  - rewrite Hk. by rewrite IH1, IH2.
Qed.

(** X9. The invalidation loop stops at the first key on which the store
    throws: with the array [ks1 ++ key :: ks2] as [options.keys], a store that
    returns on the keys of [ks1] and throws [e] on [key], and the pending call
    fulfilling with [r], the store is called on [ks1] and on [key], in order,
    and on no key of [ks2]; [data] is [r], and [e] ends in [error], in the
    status (['error']) and in the returned promise. *)
Theorem loop_stops_at_first_throw
    (ks1 ks2 : list UseQueryKey) (key : UseQueryKey) (e : TError)
    (w : World) (p : nat) (a : TParams) (r : TResult) :
  keys options = Some (KeysArray (ks1 ++ key :: ks2)) ->
  Forall (fun k => invalidateEntry store k = Normal tt) ks1 ->
  invalidateEntry store key = Throw e ->
  pendingPromise (scope w) = Some p ->
  promises w !! p = Some {| call_args := a; chain := AwaitingThen |} ->
  let w' := run options store w (settle p (Fulfilled r)) in
  invalidated (scope w') = invalidated (scope w) ++ ks1 ++ [key]
  /\ data (scope w') = Some r
  /\ error (scope w') = Some e
  /\ status (scope w') = Error
  /\ returned w' p = Some (Rejected e).
Proof.
  intros Hkeys Hok Hko Hp Hl w'. subst w'.
  destruct (submitted_stops ks1 ks2 key e Hok Hko) as [Hsub Hstop].
  assert (Hinv : invalidation options store r a = ([], ks1 ++ [key], Throw e)).
  { unfold invalidation. by rewrite Hkeys, Hsub, Hstop. }
  rewrite (settle_fulfilled options store p a r w Hp Hl).
  assert (p < length (promises w)) by (by eapply lookup_lt_Some).
  unfold fulfilled_completion, fulfilled_scope, returned. rewrite Hinv. simpl.
  by rewrite list_lookup_insert_eq.
Qed.

(** ** A call whose operation throws at once *)

(** X10. When [options.mutation] throws [e] before it returns a promise,
    [mutate] throws [e], the status is left at ['loading'], and
    [pendingPromise], [data] and [error] are as before. The call pending
    before is therefore still the pending one: when it fulfils with [r] (and
    its invalidation completes) the status becomes ['success'] and [data]
    [r]. *)
Theorem failed_start_keeps_earlier_call
    (w : World) (p : nat) (a0 a : TParams) (e : TError) (r : TResult) :
  pendingPromise (scope w) = Some p ->
  promises w !! p = Some {| call_args := a0; chain := AwaitingThen |} ->
  (invalidation options store r a0).2 = Normal tt ->
  let w1 := fst (mutate a (Some e) w) in
  let w2 := run options store w1 (settle p (Fulfilled r)) in
  snd (mutate a (Some e) w) = Throw e
  /\ (status (scope w1) = Loading /\ pendingPromise (scope w1) = Some p
      /\ promises w1 = promises w
      /\ data (scope w1) = data (scope w) /\ error (scope w1) = error (scope w))
  /\ (status (scope w2) = Success /\ data (scope w2) = Some r
      /\ error (scope w2) = None /\ returned w2 p = Some (Fulfilled r)).
Proof.
  intros Hp Hl Hok w1 w2. split; [done|]. split; [done|].
  subst w2. rewrite (settle_fulfilled options store p a0 r w1 Hp Hl).
  assert (p < length (promises w1)) by (by eapply lookup_lt_Some).
  unfold returned, fulfilled_completion. rewrite Hok. simpl.
  by rewrite list_lookup_insert_eq.
Qed.

(** ** Loading means a call is in flight *)

Lemma in_flight_same (w w' : World) :
  pendingPromise (scope w') = pendingPromise (scope w) ->
  (forall p : nat, pendingPromise (scope w) = Some p ->
     promises w' !! p = promises w !! p) ->
  in_flight w' = in_flight w.
Proof.
  intros Hp Hl. unfold in_flight. rewrite Hp.
  destruct (pendingPromise (scope w)) as [p|]; [|done]. by rewrite Hl.
Qed.

Lemma step_loading_in_flight (w : World) (ev : Event) :
  no_failed_start ev = true ->
  (status (scope w) = Loading -> in_flight w = true) ->
  status (scope (step options store w ev)) = Loading ->
  in_flight (step options store w ev) = true.
Proof.
  intros Hev Hw. destruct ev as [a [e|]| |q o|q]; simpl in *; try done.
  - intros _. unfold in_flight. simpl. by rewrite list_lookup_middle.
  - unfold run_then. destruct (promises w !! q) as [[a [| |]]|] eqn:E; try done.
    assert (Hq : q < length (promises w)) by (by eapply lookup_lt_Some).
    destruct o as [r|e].
    + destruct (decide (pendingPromise (scope w) = Some q)) as [Hp|Hp].
      * by rewrite onFulfilled_current.
      * rewrite onFulfilled_stale by done. simpl. intros Hs.
        rewrite <- (Hw Hs). apply in_flight_same; [done|]. simpl.
        intros p Hp'. apply list_lookup_insert_ne. congruence.
    + simpl. intros Hs. specialize (Hw Hs). unfold in_flight in *. simpl.
      destruct (pendingPromise (scope w)) as [p|]; [|done].
      destruct (decide (q = p)) as [->|Hne].
      * by rewrite list_lookup_insert_eq.
      * by rewrite list_lookup_insert_ne.
  - unfold run_catch. destruct (promises w !! q) as [[a [|[r|e]|]]|] eqn:E; try done.
    + simpl. intros Hs. specialize (Hw Hs). unfold in_flight in *. simpl.
      destruct (pendingPromise (scope w)) as [p|]; [|done].
      destruct (decide (q = p)) as [->|Hne].
      * by rewrite E in Hw.
      * by rewrite list_lookup_insert_ne.
    + destruct (decide (pendingPromise (scope w) = Some q)) as [Hp|Hp].
      * by rewrite onRejected_current.
      * rewrite onRejected_stale by done. simpl. intros Hs.
        rewrite <- (Hw Hs). apply in_flight_same; [done|]. simpl.
        intros p Hp'. apply list_lookup_insert_ne. congruence.
Qed.

(** X11. As long as no operation throws before it returns its promise, the
    controller is loading only while its latest call is in flight: whenever
    [isLoading] is true, the pending promise has run neither [onFulfilled] nor
    [onRejected] yet. *)
Theorem loading_means_in_flight (evs : list Event) :
  forallb no_failed_start evs = true ->
  isLoading (run options store init evs) = true ->
  in_flight (run options store init evs) = true.
Proof.
  intros Hevs Hload. apply bool_decide_eq_true in Hload. revert Hload.
  assert (H : forall w : World,
            (status (scope w) = Loading -> in_flight w = true) ->
            status (scope (run options store w evs)) = Loading ->
            in_flight (run options store w evs) = true).
  { induction evs as [|ev rest IH]; intros w Hw; simpl; [done|].
    simpl in Hevs. apply andb_prop in Hevs as [Hev Hrest].
    apply IH; [done|]. by apply step_loading_in_flight. }
  by apply H.
Qed.

(** ** Where [data] comes from *)

Lemma step_data (w : World) (ev : Event) (r : TResult) :
  data (scope (step options store w ev)) = Some r ->
  data (scope w) = Some r \/ exists p : nat, ev = RunThen p (Fulfilled r).
Proof.
  destruct ev as [a [e|]| |p o|p]; simpl; try done; try by left.
  - unfold run_then. destruct (promises w !! p) as [[a [| |]]|]; try by left.
    destruct o as [r'|e]; [|by left].
    destruct (decide (pendingPromise (scope w) = Some p)) as [Hp|Hp].
    + rewrite onFulfilled_current by done. simpl. intros [= ->]. right. by exists p.
    + rewrite onFulfilled_stale by done. by left.
  - destruct (run_catch_logs p w) as (_ & _ & ->). by left.
Qed.

(** X12. [data] only ever holds a value some operation fulfilled with: if,
    starting from a new controller, [data] is [r], then the [.then] reaction
    to a fulfilment with [r] is among the events that ran. *)
Theorem data_is_a_fulfilment (evs : list Event) (r : TResult) :
  data (scope (run options store init evs)) = Some r ->
  exists p : nat, In (RunThen p (Fulfilled r)) evs.
Proof.
  assert (H : forall w : World,
            data (scope (run options store w evs)) = Some r ->
            data (scope w) = Some r \/ exists p : nat, In (RunThen p (Fulfilled r)) evs).
  { induction evs as [|ev rest IH]; intros w Hd; simpl in *; [by left|].
    destruct (IH _ Hd) as [Hstep|[p Hin]].
    - destruct (step_data w ev r Hstep) as [Hw|[p ->]]; [by left|].
      right. exists p. by left.
    - right. exists p. by right. }
  intros Hd. by destruct (H init Hd) as [Hinit|Hex].
Qed.

(** ** Calls one after the other *)

(** X13. Calls made one after the other, each fulfilled before the next is
    made and each with an invalidation that completes, add up: the store is
    called with the keys of the first call, then those of the second, and so
    on (nothing is skipped for having been invalidated before), and the same
    holds for the calls of [options.keys]; after the last call the status is
    ['success'], [error] is absent and [data] is the last result. *)
Theorem sequential_calls_add_up (calls : list (TParams * TResult)) (w : World) :
  Forall (fun c => (invalidation options store c.2 c.1).2 = Normal tt) calls ->
  let w' := run options store w (sequential (length (promises w)) calls) in
  invalidated (scope w')
  = invalidated (scope w)
    ++ concat (map (fun c => (invalidation options store c.2 c.1).1.2) calls)
  /\ keysCalls (scope w')
     = keysCalls (scope w)
       ++ concat (map (fun c => (invalidation options store c.2 c.1).1.1) calls)
  /\ match last calls with
     | Some c => status (scope w') = Success /\ data (scope w') = Some c.2
                 /\ error (scope w') = None
     | None => scope w' = scope w
     end.
Proof.
  intros Hok. revert w. induction Hok as [|[a r] rest Hc _ IH]; intros w; cbv zeta.
  - simpl. by rewrite !app_nil_r.
  - set (w0 := step options store w (CallMutate a None)).
    set (w1 := run options store w0 (settle (length (promises w)) (Fulfilled r))).
    change (run options store w (sequential (length (promises w)) ((a, r) :: rest)))
      with (run options store w1 (sequential (S (length (promises w))) rest)).
    assert (Hp : pendingPromise (scope w0) = Some (length (promises w))) by done.
    assert (Hl : promises w0 !! length (promises w)
                 = Some {| call_args := a; chain := AwaitingThen |})
      by apply mutate_lookup.
    pose proof (settle_fulfilled options store _ a r w0 Hp Hl) as Hw1.
    unfold fulfilled_completion in Hw1. simpl in Hc. rewrite Hc in Hw1.
    fold w1 in Hw1.
    assert (Hlen : length (promises w1) = S (length (promises w))).
    { rewrite Hw1. simpl. rewrite length_insert, length_app. simpl. lia. }
    assert (Hs1 : scope w1 = fulfilled_scope options store r a (scope w0))
      by (by rewrite Hw1).
    clearbody w1. clear Hw1.
    specialize (IH w1). cbv zeta in IH. rewrite Hlen in IH.
    destruct IH as (Hi & Hk & Hlast).
    rewrite Hi, Hk, Hs1. simpl. rewrite <- !app_assoc.
    split; [done|]. split; [done|].
    destruct rest as [|c rest'].
    + change (run options store w1 (sequential (S (length (promises w))) []))
        with w1 in *.
      cbn [last]. by rewrite Hs1.
    + change (last ((a, r) :: c :: rest')) with (last (c :: rest')).
      destruct (last (c :: rest')) eqn:E; [done|]. by apply last_None in E.
Qed.

End Behaviour.

(** * The further behaviour at concrete controllers *)

(** Three calls in flight; the first two settle, the third has not. *)
Lemma only_latest_call_counts_witness :
  scope (run static_keys quiet_store init
           ([CallMutate [10%Z] None; CallMutate [20%Z] None; CallMutate [30%Z] None]
            ++ settle 1 (Fulfilled 2%Z) ++ settle 0 (Rejected "E")))
  = scope (run static_keys quiet_store init
             [CallMutate [10%Z] None; CallMutate [20%Z] None; CallMutate [30%Z] None]).
Proof.
  exact (only_latest_call_counts static_keys quiet_store
           [CallMutate [10%Z] None; CallMutate [20%Z] None; CallMutate [30%Z] None]
           (settle 1 (Fulfilled 2%Z) ++ settle 0 (Rejected "E")) 2
           eq_refl eq_refl).
Defined.

(** A call that rejects, a reset, a failed start. *)
Lemma no_fulfilment_no_invalidation_witness :
  invalidated (scope (run static_keys quiet_store init
                        ([CallMutate [10%Z] None] ++ settle 0 (Rejected "E")
                         ++ [CallReset; CallMutate [20%Z] (Some "E")])))
  = [].
Proof.
  exact (proj1 (no_fulfilment_no_invalidation static_keys quiet_store init
                  ([CallMutate [10%Z] None] ++ settle 0 (Rejected "E")
                   ++ [CallReset; CallMutate [20%Z] (Some "E")])
                  eq_refl)).
Defined.

Lemma no_keys_never_invalidates_witness :
  invalidated (scope (run no_keys failing_store init
                        (CallMutate [10%Z] None :: settle 0 (Fulfilled 42%Z))))
  = [].
Proof.
  exact (no_keys_never_invalidates no_keys failing_store init
           (CallMutate [10%Z] None :: settle 0 (Fulfilled 42%Z)) eq_refl).
Defined.

(** A call, then a later call superseding it, then the first one settling. *)
Lemma pending_only_by_reset_witness :
  forallb not_reset
    ([CallMutate [20%Z] None] ++ settle 0 (Fulfilled 1%Z)
       : list (@Event Z (list Z) string)) = true
  /\ (status (scope (run no_keys quiet_store init
                       ([CallMutate [10%Z] None; CallMutate [20%Z] None]
                        ++ settle 0 (Fulfilled 1%Z)))) = Loading
      \/ status (scope (run no_keys quiet_store init
                       ([CallMutate [10%Z] None; CallMutate [20%Z] None]
                        ++ settle 0 (Fulfilled 1%Z)))) = Success
      \/ status (scope (run no_keys quiet_store init
                       ([CallMutate [10%Z] None; CallMutate [20%Z] None]
                        ++ settle 0 (Fulfilled 1%Z)))) = Error).
Proof.
  split; [reflexivity|].
  exact (pending_only_by_reset no_keys quiet_store init [10%Z] None
           ([CallMutate [20%Z] None] ++ settle 0 (Fulfilled 1%Z)) eq_refl).
Defined.

(** Keys K1, K2, K3 and a store that throws on K2: K3 is never submitted. *)
Lemma loop_stops_at_first_throw_witness :
  invalidated (scope (run three_keys picky_store init
                        (CallMutate [10%Z] None :: settle 0 (Fulfilled 42%Z))))
  = ["K1"; "K2"]
  /\ returned (run three_keys picky_store init
                 (CallMutate [10%Z] None :: settle 0 (Fulfilled 42%Z))) 0
     = Some (Rejected "store failed").
Proof.
  assert (Hok : Forall (fun k => invalidateEntry picky_store k = Normal tt) ["K1"])
    by (repeat constructor).
  pose proof (loop_stops_at_first_throw three_keys picky_store
                ["K1"] ["K3"] "K2" "store failed"
                (run three_keys picky_store init [CallMutate [10%Z] None])
                0 [10%Z] 42%Z eq_refl Hok eq_refl eq_refl eq_refl) as H.
  cbv zeta in H. destruct H as (Hi & _ & _ & _ & Hr). split; [exact Hi|exact Hr].
Defined.

(** Call 0 is in flight when a second call fails to start; call 0 then
    fulfils with 7. *)
Lemma failed_start_keeps_earlier_call_witness :
  status (scope (run static_keys quiet_store init
                   [CallMutate [10%Z] None; CallMutate [20%Z] (Some "E")]))
  = Loading
  /\ data (scope (run static_keys quiet_store init
                    ([CallMutate [10%Z] None; CallMutate [20%Z] (Some "E")]
                     ++ settle 0 (Fulfilled 7%Z))))
     = Some 7%Z.
Proof.
  pose proof (failed_start_keeps_earlier_call static_keys quiet_store
                (run static_keys quiet_store init [CallMutate [10%Z] None])
                0 [10%Z] [20%Z] "E" 7%Z eq_refl eq_refl eq_refl) as H.
  cbv zeta in H. destruct H as (_ & (Hs & _) & (_ & Hd & _)).
  split; [exact Hs|exact Hd].
Defined.

(** A call whose operation has rejected and whose [onRejected] is to run. *)
Lemma loading_means_in_flight_witness :
  isLoading (run no_keys quiet_store init
               [CallMutate [10%Z] None; RunThen 0 (Rejected "E")]) = true
  /\ in_flight (run no_keys quiet_store init
                  [CallMutate [10%Z] None; RunThen 0 (Rejected "E")]) = true.
Proof.
  split; [reflexivity|].
  exact (loading_means_in_flight no_keys quiet_store
           [CallMutate [10%Z] None; RunThen 0 (Rejected "E")] eq_refl eq_refl).
Defined.

Lemma data_is_a_fulfilment_witness :
  exists p : nat,
    In (RunThen p (Fulfilled 42%Z))
       ([CallMutate [10%Z] None] ++ settle 0 (Fulfilled 42%Z)
        ++ [CallMutate [20%Z] None] ++ settle 1 (Rejected "E")
          : list (@Event Z (list Z) string)).
Proof.
  exact (data_is_a_fulfilment no_keys quiet_store
           ([CallMutate [10%Z] None] ++ settle 0 (Fulfilled 42%Z)
            ++ [CallMutate [20%Z] None] ++ settle 1 (Rejected "E"))
           42%Z eq_refl).
Defined.

(** Two calls, one after the other, with [keys = ["K1"; "K2"]]. *)
Lemma sequential_calls_add_up_witness :
  invalidated (scope (run static_keys quiet_store init
                        (sequential 0 [([10%Z], 1%Z); ([20%Z], 2%Z)])))
  = ["K1"; "K2"; "K1"; "K2"]
  /\ data (scope (run static_keys quiet_store init
                    (sequential 0 [([10%Z], 1%Z); ([20%Z], 2%Z)])))
     = Some 2%Z.
Proof.
  pose proof (sequential_calls_add_up static_keys quiet_store
                [([10%Z], 1%Z); ([20%Z], 2%Z)] init
                (Forall_cons_2 _ _ _ eq_refl
                   (Forall_cons_2 _ _ _ eq_refl (Forall_nil_2 _)))) as H.
  cbv zeta in H. destruct H as (Hi & _ & Hlast).
  split; [exact Hi|]. exact (proj1 (proj2 Hlast)).
Defined.
